(** * wdk-sys [input.h]: the bindgen entry header

    [crates/wdk-sys/src/input.h] is the header handed to the binding
    generator.  It has two parts that this development embeds:

    - the declarations it writes itself, the unions [KGDTENTRY64] and
      [KIDTENTRY64], as C types together with the layout the target ABI
      (x64 Windows, LLP64) gives them;
    - its conditional structure, as a function from the set of macros
      defined on entry to the sequence of includes and declarations that
      survive preprocessing. *)

From stdpp Require Import gmap strings list.
From Stdlib Require Import NArith.

Local Open Scope string_scope.
Local Open Scope N_scope.

(** ** C types *)

Module CType.

(** The four integer types the header uses.  [UInt64] is
    [unsigned __int64]. *)
Inductive ikind := UChar | UShort | ULong | UInt64.

(** Sizes in bytes on x64 Windows: [long] is 32 bits there. *)
Definition ikind_size (k : ikind) : N :=
  match k with
  | UChar => 1
  | UShort => 2
  | ULong => 4
  | UInt64 => 8
  end.

(** A member declaration: a named field, a named bit-field of an integer
    type, or an anonymous struct/union whose members belong to the
    enclosing aggregate. *)
Inductive member (T : Type) :=
| Field (name : string) (t : T)
| BitField (name : string) (k : ikind) (width : N)
| Anon (t : T).
Arguments Field {T} name t.
Arguments BitField {T} name k width.
Arguments Anon {T} t.

#[warnings="-register-all"]
Inductive ctype :=
| TInt (k : ikind)
| TStruct (ms : list (member ctype))
| TUnion (ms : list (member ctype)).

(** ** Layout *)

(** The rules of the x64 Windows ABI, for which the WDK headers are
    written: an integer is aligned to its size; a struct member goes to
    the next multiple of its alignment; an aggregate is aligned like its
    most aligned member and padded to a multiple of that; consecutive
    bit-fields whose types have one size share a storage unit of that size
    as long as they fit, filled from the low bit. *)

(** What the layout of an aggregate needs to know of one member. *)
Record slot := Slot { sl_size : N; sl_align : N; sl_bits : option N }.

(** Where a member ends up: the byte offset of the member (for a bit-field,
    of its storage unit), the first bit inside the unit, the number of
    bits. *)
Record place := Place { p_byte : N; p_bit : N; p_width : N }.

Definition align_up (n a : N) : N := (n + a - 1) / a * a.

(** Walking a struct: the first free byte, and the open bit-field unit if
    the previous member was a bit-field (unit size, unit offset, bits
    taken). *)
Record cursor := Cursor { c_next : N; c_unit : option (N * N * N) }.

(** A bit-field that starts a storage unit of its type. *)
Definition open_unit (c : cursor) (s : slot) (w : N) : place * cursor :=
  let o := align_up (c_next c) (sl_align s) in
  (Place o 0 w, Cursor (o + sl_size s) (Some (sl_size s, o, w))).

(** One step of struct layout.  A bit-field joins the open unit when its
    type has the unit's size and the bits still fit; otherwise it opens a
    unit of its own type.  Any other member closes the unit. *)
Definition place_member (c : cursor) (s : slot) : place * cursor :=
  match sl_bits s with
  | None =>
      let o := align_up (c_next c) (sl_align s) in
      (Place o 0 (8 * sl_size s), Cursor (o + sl_size s) None)
  | Some w =>
      match c_unit c with
      | Some (us, uo, used) =>
          if (us =? sl_size s) && (used + w <=? 8 * us)
          then (Place uo used w, Cursor (c_next c) (Some (us, uo, used + w)))
          else open_unit c s w
      | None => open_unit c s w
      end
  end.

Fixpoint place_struct (c : cursor) (ss : list slot) : list place * N :=
  match ss with
  | [] => ([], c_next c)
  | s :: ss' =>
      let '(p, c') := place_member c s in
      let '(ps, e) := place_struct c' ss' in
      (p :: ps, e)
  end.

(** Every member of a union starts at byte 0. *)
Definition place_union (ss : list slot) : list place :=
  map (λ s, Place 0 0 (match sl_bits s with Some w => w | None => 8 * sl_size s end)) ss.

Definition slots_align (ss : list slot) : N := foldr N.max 1 (map sl_align ss).

Definition struct_size (ss : list slot) : N :=
  align_up (snd (place_struct (Cursor 0 None) ss)) (slots_align ss).

Definition union_size (ss : list slot) : N :=
  align_up (foldr N.max 0 (map sl_size ss)) (slots_align ss).

Fixpoint alignof (t : ctype) : N :=
  match t with
  | TInt k => ikind_size k
  | TStruct ms | TUnion ms =>
      foldr N.max 1
        (map (λ m, match m with
                   | Field _ t' | Anon t' => alignof t'
                   | BitField _ k _ => ikind_size k
                   end) ms)
  end.

Definition slot_with (size : ctype → N) (m : member ctype) : slot :=
  match m with
  | Field _ t | Anon t => Slot (size t) (alignof t) None
  | BitField _ k w => Slot (ikind_size k) (ikind_size k) (Some w)
  end.

Fixpoint sizeof (t : ctype) : N :=
  match t with
  | TInt k => ikind_size k
  | TStruct ms => struct_size (map (slot_with sizeof) ms)
  | TUnion ms => union_size (map (slot_with sizeof) ms)
  end.

Definition slot_of : member ctype → slot := slot_with sizeof.

(** The places of the direct members of an aggregate, in declaration
    order. *)
Definition places (t : ctype) : list place :=
  match t with
  | TInt _ => []
  | TStruct ms => fst (place_struct (Cursor 0 None) (map slot_of ms))
  | TUnion ms => place_union (map slot_of ms)
  end.

(** ** Member lookup *)

(** A member found by name: its place relative to the aggregate searched,
    and its declared type (for a bit-field, the integer type). *)
Record found := Found { f_place : place; f_type : ctype }.

Definition shift (by_ : N) (f : found) : found :=
  Found (Place (by_ + p_byte (f_place f)) (p_bit (f_place f)) (p_width (f_place f)))
        (f_type f).

(** [locate t n]: the member called [n] of [t], searching anonymous
    members as the language does and named members not at all. *)
Fixpoint locate (t : ctype) (n : string) {struct t} : option found :=
  let search :=
    fix go (ms : list (member ctype)) (ps : list place) {struct ms} : option found :=
      match ms, ps with
      | m :: ms', p :: ps' =>
          let here :=
            match m with
            | Field n' t' => if String.eqb n n' then Some (Found p t') else None
            | BitField n' k _ => if String.eqb n n' then Some (Found p (TInt k)) else None
            | Anon t' => shift (p_byte p) <$> locate t' n
            end in
          match here with
          | Some f => Some f
          | None => go ms' ps'
          end
      | _, _ => None
      end in
  match t with
  | TInt _ => None
  | TStruct ms => search ms (places (TStruct ms))
  | TUnion ms => search ms (places (TUnion ms))
  end.

(** [locate_path t [a; b; c]] is the member [a.b.c] of [t]. *)
Fixpoint locate_path (t : ctype) (path : list string) : option found :=
  match path with
  | [] => None
  | [n] => locate t n
  | n :: rest =>
      match locate t n with
      | Some f => shift (p_byte (f_place f)) <$> locate_path (f_type f) rest
      | None => None
      end
  end.

(** The member names of an aggregate in declaration order, anonymous
    members opened up; a bit-field carries its integer type and width. *)
Fixpoint fields (t : ctype) : list (string * option (ikind * N)) :=
  match t with
  | TInt _ => []
  | TStruct ms | TUnion ms =>
      concat (map (λ m, match m with
                        | Field n _ => [(n, None)]
                        | BitField n k w => [(n, Some (k, w))]
                        | Anon t' => fields t'
                        end) ms)
  end.

(** Bytes taken by the members of a struct that are not bit-fields,
    padding left out. *)
Definition plain_total (ss : list slot) : N :=
  foldr (λ s acc, match sl_bits s with None => sl_size s | Some _ => 0 end + acc) 0 ss.

Definition bit_fields (t : ctype) : list (string * ikind * N) :=
  omap (λ '(n, b), (λ '(k, w), (n, k, w)) <$> b) (fields t).

Definition sum_widths (l : list (string * ikind * N)) : N :=
  foldr (λ '(_, _, w) acc, w + acc) 0 l.

End CType.

Import CType.

(** ** The declarations of [input.h] *)

(** [typedef union tag { ... } name, *pointer;] *)
Record typedef := Typedef {
  td_tag : string;
  td_type : ctype;
  td_name : string;
  td_pointer : string
}.

Definition uchar := TInt UChar.
Definition ushort := TInt UShort.
Definition ulong := TInt ULong.
Definition uint64 := TInt UInt64.

(** [input.h], lines 14 to 47. *)
Definition _KGDTENTRY64 : ctype :=
  TUnion [
    Anon (TStruct [
      Field "LimitLow" ushort;
      Field "BaseLow" ushort;
      Anon (TUnion [
        Field "Bytes" (TStruct [
          Field "BaseMiddle" uchar;
          Field "Flags1" uchar;
          Field "Flags2" uchar;
          Field "BaseHigh" uchar ]);
        Field "Bits" (TStruct [
          BitField "BaseMiddle" ULong 8;
          BitField "Type" ULong 5;
          BitField "Dpl" ULong 2;
          BitField "Present" ULong 1;
          BitField "LimitHigh" ULong 4;
          BitField "System" ULong 1;
          BitField "LongMode" ULong 1;
          BitField "DefaultBig" ULong 1;
          BitField "Granularity" ULong 1;
          BitField "BaseHigh" ULong 8 ]) ]);
      Field "BaseUpper" ulong;
      Field "MustBeZero" ulong ]);
    Field "Alignment" uint64 ].

Definition KGDTENTRY64 : typedef :=
  Typedef "_KGDTENTRY64" _KGDTENTRY64 "KGDTENTRY64" "PKGDTENTRY64".

(** [input.h], lines 49 to 65. *)
Definition _KIDTENTRY64 : ctype :=
  TUnion [
    Anon (TStruct [
      Field "OffsetLow" ushort;
      Field "Selector" ushort;
      BitField "IstIndex" UShort 3;
      BitField "Reserved0" UShort 5;
      BitField "Type" UShort 5;
      BitField "Dpl" UShort 2;
      BitField "Present" UShort 1;
      Field "OffsetMiddle" ushort;
      Field "OffsetHigh" ulong;
      Field "Reserved1" ulong ]);
    Field "Alignment" uint64 ].

Definition KIDTENTRY64 : typedef :=
  Typedef "_KIDTENTRY64" _KIDTENTRY64 "KIDTENTRY64" "PKIDTENTRY64".

(** ** Preprocessing *)

(** The two macros the header tests.  The build defines them (or not)
    before the header is read. *)
Definition UMDF_VERSION_MAJOR : string := "UMDF_VERSION_MAJOR".
Definition KMDF_VERSION_MAJOR : string := "KMDF_VERSION_MAJOR".

(** [#include <f>] and [#include "f"]. *)
Inductive header := Angle (f : string) | Quote (f : string).

Global Instance header_eq_dec : EqDecision header.
Proof. solve_decision. Defined.

(** What is left of the file after preprocessing: the headers pulled in,
    which are not part of this repository and stay opaque, and the
    declarations the file writes itself. *)
Inductive item := Include (h : header) | Decl (d : typedef).

(** A run either ends with a macro table and the items produced, or stops
    at an [#error]. *)
Inductive outcome :=
| Done (env : gset string) (out : list item)
| Fatal (msg : string).

Section Directives.

(** What an external header does to the macro table. *)
Variable ext : header → gset string → gset string.

Definition directive := gset string → outcome.

Definition include (h : header) : directive :=
  λ env, Done (ext h env) [Include h].

(** A declaration of the file, passed on as it is written: replacement of
    macros inside its text is not modelled, so nothing here speaks of
    macros named like one of its identifiers. *)
Definition decl (d : typedef) : directive :=
  λ env, Done env [Decl d].

Definition skip : directive := λ env, Done env [].

(** [#error msg]; [input.h] has none. *)
Definition error (msg : string) : directive := λ _, Fatal msg.

Definition seq (a b : directive) : directive :=
  λ env,
    match a env with
    | Done env1 out1 =>
        match b env1 with
        | Done env2 out2 => Done env2 (out1 ++ out2)
        | Fatal msg => Fatal msg
        end
    | Fatal msg => Fatal msg
    end.

(** [defined(s)] *)
Definition defined (s : string) (env : gset string) : bool :=
  bool_decide (s ∈ env).

(** [#if c ... #else ... #endif]; without [#else] the second branch is
    [skip]. *)
Definition if_else (c : gset string → bool) (a b : directive) : directive :=
  λ env, if c env then a env else b env.

Local Infix ">>" := seq (at level 65, right associativity).

(** [input.h], lines 4 to 72: the [#if]/[#else]/[#endif] on
    [UMDF_VERSION_MAJOR], then the [#if]/[#endif] around [wdf.h]. *)
Definition input_h : directive :=
  if_else (defined UMDF_VERSION_MAJOR)
    (include (Angle "windows.h"))
    (include (Quote "ntifs.h") >>
     include (Quote "ntddk.h") >>
     decl KGDTENTRY64 >>
     decl KIDTENTRY64) >>
  if_else (λ env, defined KMDF_VERSION_MAJOR env || defined UMDF_VERSION_MAJOR env)
    (include (Angle "wdf.h"))
    skip.

(** The items a run on the macro table [cfg] leaves. *)
Definition output (cfg : gset string) : list item :=
  match input_h cfg with
  | Done _ out => out
  | Fatal _ => []
  end.

End Directives.

(** ** Reading a run's output *)

Definition included (out : list item) : list header :=
  omap (λ i, match i with Include h => Some h | Decl _ => None end) out.

Definition typedefs (out : list item) : list typedef :=
  omap (λ i, match i with Decl d => Some d | Include _ => None end) out.

(** [d] introduces the name [n]: as its union tag, its typedef name or its
    pointer typedef name. *)
Definition introduces (n : string) (d : typedef) : bool :=
  String.eqb n (td_tag d) || String.eqb n (td_name d) || String.eqb n (td_pointer d).

(** How many declarations of [out] introduce [n]. *)
Definition definitions (n : string) (out : list item) : nat :=
  length (List.filter (introduces n) (typedefs out)).

Definition find_typedef (n : string) (out : list item) : option typedef :=
  List.find (λ d, String.eqb n (td_name d)) (typedefs out).

(** The two environments a pass can bind, and the base headers of each. *)
Inductive target := KernelMode | UserModeFramework.

Definition base_headers (t : target) : list header :=
  match t with
  | UserModeFramework => [Angle "windows.h"]
  | KernelMode => [Quote "ntifs.h"; Quote "ntddk.h"]
  end.

Definition wdf_h : header := Angle "wdf.h".

Definition is_base (h : header) : bool :=
  bool_decide (h ∈ (base_headers KernelMode ++ base_headers UserModeFramework)%list).

(** The base headers of [out], in the order they were included. *)
Definition base_part (out : list item) : list header :=
  List.filter is_base (included out).

(** The targets all of whose base headers were included. *)
Definition selection (out : list item) : list target :=
  List.filter (λ t, forallb (λ h, bool_decide (h ∈ included out)) (base_headers t))
    [KernelMode; UserModeFramework].

(** Classes of items, for statements about order. *)
Definition base_include (i : item) : bool :=
  match i with Include h => is_base h | Decl _ => false end.

Definition gap_declaration (i : item) : bool :=
  match i with Decl _ => true | Include _ => false end.

Definition framework_include (i : item) : bool :=
  match i with Include h => bool_decide (h = wdf_h) | Decl _ => false end.

(** Every [P] item of [l] stands before every [Q] item of [l]. *)
Definition precedes (P Q : item → bool) (l : list item) : Prop :=
  ∀ (i j : nat) x y,
    l !! i = Some x → l !! j = Some y → P x = true → Q y = true → (i < j)%nat.

(** The same, as a check that runs. *)
Fixpoint precedesb (P Q : item → bool) (l : list item) : bool :=
  match l with
  | [] => true
  | x :: r => (negb (Q x) || forallb (λ y, negb (P y)) (x :: r)) && precedesb P Q r
  end.

(** Size in bytes of the member [n] of [t]. *)
Definition member_size (t : ctype) (n : string) : option N :=
  (λ f, sizeof (f_type f)) <$> locate t n.

(** The bits a member occupies, counted from the start of the aggregate
    (x64 is little-endian: bit [b] of the byte at offset [o] is bit
    [8 * o + b]): first bit, and one past the last. *)
Definition bit_range (f : found) : N * N :=
  let first := 8 * p_byte (f_place f) + p_bit (f_place f) in
  (first, first + p_width (f_place f)).

Definition bits_at (t : ctype) (path : list string) : option (N * N) :=
  bit_range <$> locate_path t path.

(** [offsetof]: the byte offset of the member [n] of [t]; for a bit-field,
    of its storage unit. *)
Definition offset_of (t : ctype) (n : string) : option N :=
  (λ f, p_byte (f_place f)) <$> locate t n.

(** The members of the member at [path], in declaration order. *)
Definition members_at (t : ctype) (path : list string)
  : option (list (string * option (ikind * N))) :=
  (λ f, fields (f_type f)) <$> locate_path t path.

(** ** Two header behaviours to run the model on *)

(** Headers that leave the macro table alone. *)
Definition silent : header → gset string → gset string := λ _ env, env.

(** Headers that define their include guard. *)
Definition guard_of (h : header) : string :=
  match h with
  | Angle f | Quote f =>
      if String.eqb f "windows.h" then "_WINDOWS_"
      else if String.eqb f "ntifs.h" then "_NTIFS_"
      else if String.eqb f "ntddk.h" then "_NTDDK_"
      else if String.eqb f "wdf.h" then "_WDF_H_"
      else "_" +:+ f
  end.

Definition guarded : header → gset string → gset string :=
  λ h env, {[ guard_of h ]} ∪ env.

(** The build sets the version macros; a base header neither defines nor
    undefines them. *)
Definition keeps_versions (ext : header → gset string → gset string) : Prop :=
  ∀ h env s,
    is_base h = true →
    s ∈ [UMDF_VERSION_MAJOR; KMDF_VERSION_MAJOR] →
    (s ∈ ext h env ↔ s ∈ env).

(** ** Objects of the declared types *)

(** An object is the number its bytes spell, least significant byte first
    as on x64: the byte at offset [o] holds bits [8 * o] to [8 * o + 7].
    A member access reads or replaces the bits the layout gives the
    member; a store keeps as many low bits of the value as the member
    has. *)
Definition get (obj : N) (r : N * N) : N :=
  (obj / 2 ^ fst r) mod 2 ^ (snd r - fst r).

Definition put (obj : N) (r : N * N) (v : N) : N :=
  let w := snd r - fst r in
  N.lor (N.ldiff obj (N.shiftl (N.ones w) (fst r)))
        (N.shiftl (v mod 2 ^ w) (fst r)).

(** [obj.path] and [obj.path = v]. *)
Definition read (t : ctype) (path : list string) (obj : N) : option N :=
  get obj <$> bits_at t path.

Definition write (t : ctype) (path : list string) (v obj : N) : option N :=
  (λ r, put obj r v) <$> bits_at t path.

(** The members at [p] and [q] of [t] have a bit in common. *)
Definition overlaps (t : ctype) (p q : list string) : bool :=
  match bits_at t p, bits_at t q with
  | Some r1, Some r2 => (fst r1 <? snd r2) && (fst r2 <? snd r1)
  | _, _ => false
  end.

(** The bit ranges of the members at [paths]. *)
Definition field_ranges (t : ctype) (paths : list (list string)) : list (N * N) :=
  omap (bits_at t) paths.

(** Ranges that follow one another from bit [a] to bit [c] with no gap. *)
Fixpoint consecutive (a : N) (rs : list (N * N)) (c : N) : bool :=
  match rs with
  | [] => a =? c
  | r :: rs' => (fst r =? a) && (a <=? snd r) && consecutive (snd r) rs' c
  end.

(** The values of the ranges [rs] of [obj], each put back at its place. *)
Definition glue (obj : N) (rs : list (N * N)) : N :=
  foldr (λ r acc, get obj r * 2 ^ fst r + acc) 0 rs.

Definition disjoint_ranges (r1 r2 : N * N) : bool :=
  (fst r1 <=? snd r1) && (fst r2 <=? snd r2) &&
  ((snd r1 <=? fst r2) || (snd r2 <=? fst r1)).

(** All of [paths] are members of [t], and no two of them share a bit. *)
Definition independent (t : ctype) (paths : list (list string)) : bool :=
  forallb (λ p1,
    forallb (λ p2,
      match bits_at t p1, bits_at t p2 with
      | Some r1, Some r2 => bool_decide (p1 = p2) || disjoint_ranges r1 r2
      | _, _ => false
      end) paths) paths.

(** All of [paths] are members of [t] that end inside it. *)
Definition within (t : ctype) (paths : list (list string)) : bool :=
  forallb (λ p,
    match bits_at t p with
    | Some r => snd r <=? 8 * sizeof t
    | None => false
    end) paths.

(** The members of the two structs, by path. *)
Definition KIDTENTRY64_fields : list (list string) :=
  [["OffsetLow"]; ["Selector"]; ["IstIndex"]; ["Reserved0"]; ["Type"];
   ["Dpl"]; ["Present"]; ["OffsetMiddle"]; ["OffsetHigh"]; ["Reserved1"]].

Definition KGDTENTRY64_fields_bits : list (list string) :=
  [["LimitLow"]; ["BaseLow"];
   ["Bits"; "BaseMiddle"]; ["Bits"; "Type"]; ["Bits"; "Dpl"];
   ["Bits"; "Present"]; ["Bits"; "LimitHigh"]; ["Bits"; "System"];
   ["Bits"; "LongMode"]; ["Bits"; "DefaultBig"]; ["Bits"; "Granularity"];
   ["Bits"; "BaseHigh"];
   ["BaseUpper"]; ["MustBeZero"]].

Definition KGDTENTRY64_fields_bytes : list (list string) :=
  [["LimitLow"]; ["BaseLow"];
   ["Bytes"; "BaseMiddle"]; ["Bytes"; "Flags1"]; ["Bytes"; "Flags2"];
   ["Bytes"; "BaseHigh"];
   ["BaseUpper"]; ["MustBeZero"]].

(** ** Runs, once more *)

Definition items (o : outcome) : list item :=
  match o with
  | Done _ out => out
  | Fatal _ => []
  end.


(** The four item lists a run can leave. *)
Inductive shape : list item → Prop :=
| shape_user_fw : shape [Include (Angle "windows.h"); Include wdf_h]
| shape_user : shape [Include (Angle "windows.h")]
| shape_kernel_fw :
    shape [Include (Quote "ntifs.h"); Include (Quote "ntddk.h");
           Decl KGDTENTRY64; Decl KIDTENTRY64; Include wdf_h]
| shape_kernel :
    shape [Include (Quote "ntifs.h"); Include (Quote "ntddk.h");
           Decl KGDTENTRY64; Decl KIDTENTRY64].

(** * Properties *)

(** ** Preprocessing: the shape of every run *)

Section Runs.

Variable ext : header → gset string → gset string.

Lemma input_h_done cfg : ∃ env out, input_h ext cfg = Done env out.
Proof.
  unfold input_h, seq, if_else, include, decl, skip.
  destruct (defined UMDF_VERSION_MAJOR cfg); simpl;
    match goal with |- context [if ?b then _ else _] => destruct b end;
    eauto.
Qed.

(** The user-mode branch. *)
Lemma output_user cfg :
  UMDF_VERSION_MAJOR ∈ cfg →
  output ext cfg =
    Include (Angle "windows.h") ::
    (if defined KMDF_VERSION_MAJOR (ext (Angle "windows.h") cfg)
        || defined UMDF_VERSION_MAJOR (ext (Angle "windows.h") cfg)
     then [Include wdf_h] else []).
Proof.
  intros Hu. unfold output, input_h, seq, if_else, include, decl, skip.
  unfold defined at 1. rewrite bool_decide_eq_true_2 by exact Hu. simpl.
  match goal with |- context [if ?b then _ else _] => destruct b end;
    reflexivity.
Qed.

(** The kernel-mode branch. *)
Lemma output_kernel cfg :
  UMDF_VERSION_MAJOR ∉ cfg →
  output ext cfg =
    Include (Quote "ntifs.h") :: Include (Quote "ntddk.h") ::
    Decl KGDTENTRY64 :: Decl KIDTENTRY64 ::
    (if defined KMDF_VERSION_MAJOR (ext (Quote "ntddk.h") (ext (Quote "ntifs.h") cfg))
        || defined UMDF_VERSION_MAJOR (ext (Quote "ntddk.h") (ext (Quote "ntifs.h") cfg))
     then [Include wdf_h] else []).
Proof.
  intros Hu. unfold output, input_h, seq, if_else, include, decl, skip.
  unfold defined at 1. rewrite bool_decide_eq_false_2 by exact Hu. simpl.
  match goal with |- context [if ?b then _ else _] => destruct b end;
    reflexivity.
Qed.

Lemma output_shape cfg : shape (output ext cfg).
Proof.
  destruct (decide (UMDF_VERSION_MAJOR ∈ cfg)) as [Hu|Hu].
  - rewrite (output_user _ Hu).
    match goal with |- context [if ?b then _ else _] => destruct b end;
      constructor.
  - rewrite (output_kernel _ Hu).
    match goal with |- context [if ?b then _ else _] => destruct b end;
      constructor.
Qed.

(** With base headers that keep the version macros, the test in front of
    [wdf.h] sees what the build defined. *)
Lemma framework_test_after h env :
  keeps_versions ext → is_base h = true →
  defined KMDF_VERSION_MAJOR (ext h env) || defined UMDF_VERSION_MAJOR (ext h env)
  = defined KMDF_VERSION_MAJOR env || defined UMDF_VERSION_MAJOR env.
Proof.
  intros Hk Hb. unfold defined.
  f_equal; apply bool_decide_ext, Hk; set_solver.
Qed.

End Runs.

Lemma framework_test_spec (env : gset string) :
  defined KMDF_VERSION_MAJOR env || defined UMDF_VERSION_MAJOR env = true
  ↔ KMDF_VERSION_MAJOR ∈ env ∨ UMDF_VERSION_MAJOR ∈ env.
Proof.
  unfold defined. rewrite orb_true_iff, !bool_decide_eq_true. reflexivity.
Qed.

Lemma silent_keeps : keeps_versions silent.
Proof. intros h env s _ _. reflexivity. Qed.

Lemma guarded_keeps : keeps_versions guarded.
Proof.
  intros h env s Hb Hs. unfold guarded.
  assert (s ≠ guard_of h) as Hne.
  { apply bool_decide_eq_true in Hb.
    set_unfold in Hb. set_unfold in Hs.
    destruct Hb as [-> | [-> | [-> | []]]], Hs as [-> | [-> | []]]; discriminate. }
  rewrite elem_of_union, elem_of_singleton. tauto.
Qed.

Lemma precedesb_sound P Q l : precedesb P Q l = true → precedes P Q l.
Proof.
  induction l as [|a l IH]; intros Hb i j x y Hi Hj HP HQ.
  - destruct i; discriminate.
  - simpl in Hb. apply andb_true_iff in Hb as [Hhd Htl].
    destruct j as [|j].
    + simpl in Hj. injection Hj as Heq. subst y.
      rewrite HQ in Hhd. simpl in Hhd.
      assert (forallb (λ y, negb (P y)) (a :: l) = true) as Hall by exact Hhd.
      rewrite forallb_forall in Hall.
      assert (In x (a :: l)) as Hin.
      { apply list_elem_of_In, list_elem_of_lookup. eauto. }
      specialize (Hall x Hin). rewrite HP in Hall. discriminate.
    + destruct i as [|i]; [lia|].
      simpl in Hi, Hj. specialize (IH Htl i j x y Hi Hj HP HQ). lia.
Qed.

(** Split a goal about [output ext cfg] by branch and by the outcome of
    the test in front of [wdf.h]. *)
Ltac by_shape ext cfg Hu :=
  destruct (decide (UMDF_VERSION_MAJOR ∈ cfg)) as [Hu|Hu];
  [ rewrite !(output_user ext cfg Hu) | rewrite !(output_kernel ext cfg Hu) ];
  match goal with |- context [if ?b then _ else _] => destruct b end.

Lemma base_part_output ext cfg :
  base_part (output ext cfg) =
  base_headers (if defined UMDF_VERSION_MAJOR cfg then UserModeFramework else KernelMode).
Proof.
  unfold defined.
  by_shape ext cfg Hu;
    first [ rewrite (bool_decide_eq_true_2 _ Hu) | rewrite (bool_decide_eq_false_2 _ Hu) ];
    reflexivity.
Qed.

(** ** Gap-filled declarations per branch *)

(** C3. Whatever is defined on entry, the output defines [KGDTENTRY64] and
    [KIDTENTRY64] once each when [UMDF_VERSION_MAJOR] is undefined, not at
    all when it is defined (the output then holds no declaration), and
    never twice. *)
Theorem gap_definitions_per_branch ext cfg :
  (UMDF_VERSION_MAJOR ∉ cfg →
     definitions "KGDTENTRY64" (output ext cfg) = 1%nat ∧
     definitions "KIDTENTRY64" (output ext cfg) = 1%nat) ∧
  (UMDF_VERSION_MAJOR ∈ cfg →
     definitions "KGDTENTRY64" (output ext cfg) = 0%nat ∧
     definitions "KIDTENTRY64" (output ext cfg) = 0%nat ∧
     typedefs (output ext cfg) = []) ∧
  (definitions "KGDTENTRY64" (output ext cfg) ≤ 1)%nat ∧
  (definitions "KIDTENTRY64" (output ext cfg) ≤ 1)%nat.
Proof.
  by_shape ext cfg Hu; repeat split; intros; try contradiction;
    try reflexivity; vm_compute; lia.
Qed.

(** ** Base-target selection *)

(** C4. Whether [UMDF_VERSION_MAJOR] is defined decides the base headers
    and nothing else does: defined, the output has [windows.h] and neither
    kernel header; undefined, it has [ntifs.h] then [ntddk.h] and not
    [windows.h].  In both cases exactly one target has its base headers
    included. *)
Theorem base_selection ext cfg :
  (UMDF_VERSION_MAJOR ∈ cfg →
     base_part (output ext cfg) = [Angle "windows.h"] ∧
     selection (output ext cfg) = [UserModeFramework]) ∧
  (UMDF_VERSION_MAJOR ∉ cfg →
     base_part (output ext cfg) = [Quote "ntifs.h"; Quote "ntddk.h"] ∧
     selection (output ext cfg) = [KernelMode]) ∧
  (∃ t, selection (output ext cfg) = [t]) ∧
  (∀ cfg', (UMDF_VERSION_MAJOR ∈ cfg ↔ UMDF_VERSION_MAJOR ∈ cfg') →
     base_part (output ext cfg') = base_part (output ext cfg)).
Proof.
  split; [|split; [|split]].
  - intros Hu. rewrite (output_user ext cfg Hu).
    match goal with |- context [if ?b then _ else _] => destruct b end;
      split; reflexivity.
  - intros Hu. rewrite (output_kernel ext cfg Hu).
    match goal with |- context [if ?b then _ else _] => destruct b end;
      split; reflexivity.
  - by_shape ext cfg Hu; eexists; reflexivity.
  - intros cfg' Hsame. rewrite !base_part_output. unfold defined.
    rewrite (bool_decide_ext _ _ Hsame). reflexivity.
Qed.

(** ** The framework header *)

(** C5. With base headers that leave the version macros as the build set
    them, [wdf.h] is in the output exactly when [KMDF_VERSION_MAJOR] or
    [UMDF_VERSION_MAJOR] is defined; so it is absent when neither is, it is
    present throughout the user-mode branch, and in the kernel-mode branch
    it follows [KMDF_VERSION_MAJOR]. *)
Theorem framework_inclusion ext (Hk : keeps_versions ext) cfg :
  (wdf_h ∈ included (output ext cfg) ↔
     KMDF_VERSION_MAJOR ∈ cfg ∨ UMDF_VERSION_MAJOR ∈ cfg) ∧
  (KMDF_VERSION_MAJOR ∉ cfg → UMDF_VERSION_MAJOR ∉ cfg →
     wdf_h ∉ included (output ext cfg)) ∧
  (UMDF_VERSION_MAJOR ∈ cfg → wdf_h ∈ included (output ext cfg)) ∧
  (UMDF_VERSION_MAJOR ∉ cfg →
     (wdf_h ∈ included (output ext cfg) ↔ KMDF_VERSION_MAJOR ∈ cfg)).
Proof.
  assert (wdf_h ∈ included (output ext cfg) ↔
          KMDF_VERSION_MAJOR ∈ cfg ∨ UMDF_VERSION_MAJOR ∈ cfg) as Hiff.
  { rewrite <- framework_test_spec.
    destruct (decide (UMDF_VERSION_MAJOR ∈ cfg)) as [Hu|Hu].
    - rewrite (output_user ext cfg Hu).
      rewrite (framework_test_after ext _ _ Hk) by reflexivity.
      destruct (defined KMDF_VERSION_MAJOR cfg || defined UMDF_VERSION_MAJOR cfg);
        simpl; set_unfold; unfold wdf_h; split; intros H;
        try discriminate; intuition discriminate.
    - rewrite (output_kernel ext cfg Hu).
      rewrite !(framework_test_after ext _ _ Hk) by reflexivity.
      destruct (defined KMDF_VERSION_MAJOR cfg || defined UMDF_VERSION_MAJOR cfg);
        simpl; set_unfold; unfold wdf_h; split; intros H;
        try discriminate; intuition discriminate. }
  repeat split; intros; tauto.
Qed.

Lemma framework_inclusion_witness :
  keeps_versions guarded ∧
  wdf_h ∈ included (output guarded {[ KMDF_VERSION_MAJOR ]}) ∧
  wdf_h ∉ included (output guarded ∅).
Proof.
  split; [exact guarded_keeps|]. split.
  - apply (proj1 (framework_inclusion guarded guarded_keeps {[ KMDF_VERSION_MAJOR ]})).
    left. apply elem_of_singleton. reflexivity.
  - apply (proj1 (proj2 (framework_inclusion guarded guarded_keeps ∅)));
      apply not_elem_of_empty.
Defined.

(** ** Order of the three layers *)

(** C6. In every output the base includes stand before the gap-filled
    declarations, and base includes and declarations alike stand before
    [wdf.h]; a declaration is there only in the kernel-mode branch, whose
    base headers are [ntifs.h] and [ntddk.h]. *)
Theorem layer_order ext cfg :
  precedes base_include gap_declaration (output ext cfg) ∧
  precedes (λ i, base_include i || gap_declaration i) framework_include (output ext cfg) ∧
  (∀ d, Decl d ∈ output ext cfg →
     (UMDF_VERSION_MAJOR ∉ cfg) ∧
     base_part (output ext cfg) = [Quote "ntifs.h"; Quote "ntddk.h"]).
Proof.
  split; [|split].
  - apply precedesb_sound. destruct (output_shape ext cfg); reflexivity.
  - apply precedesb_sound. destruct (output_shape ext cfg); reflexivity.
  - intros d Hd.
    destruct (decide (UMDF_VERSION_MAJOR ∈ cfg)) as [Hu|Hu].
    + exfalso. revert Hd. rewrite (output_user ext cfg Hu).
      match goal with |- context [if ?b then _ else _] => destruct b end;
        set_unfold; intuition discriminate.
    + split; [exact Hu|]. rewrite base_part_output. unfold defined.
      rewrite (bool_decide_eq_false_2 _ Hu). reflexivity.
Qed.

(** All three layers in one run: kernel mode with the framework. *)
Example layer_order_kernel_framework :
  output guarded {[ KMDF_VERSION_MAJOR ]} =
    [Include (Quote "ntifs.h"); Include (Quote "ntddk.h");
     Decl KGDTENTRY64; Decl KIDTENTRY64; Include wdf_h].
Proof. vm_compute. reflexivity. Qed.

(** ** Both base macros defined *)

(** C9. With [UMDF_VERSION_MAJOR] defined, defining [KMDF_VERSION_MAJOR] as
    well changes nothing: with or without it the output is [windows.h]
    followed by [wdf.h].  No run of the header stops at an [#error]. *)
Theorem umdf_overrides_kmdf ext (Hk : keeps_versions ext) cfg :
  UMDF_VERSION_MAJOR ∈ cfg →
  output ext (cfg ∪ {[ KMDF_VERSION_MAJOR ]}) = [Include (Angle "windows.h"); Include wdf_h] ∧
  output ext (cfg ∖ {[ KMDF_VERSION_MAJOR ]}) = [Include (Angle "windows.h"); Include wdf_h] ∧
  output ext (cfg ∪ {[ KMDF_VERSION_MAJOR ]}) = output ext (cfg ∖ {[ KMDF_VERSION_MAJOR ]}) ∧
  (∀ c, ∃ env out, input_h ext c = Done env out).
Proof.
  intros Hu.
  assert (∀ c, UMDF_VERSION_MAJOR ∈ c →
               output ext c = [Include (Angle "windows.h"); Include wdf_h]) as Hrun.
  { intros c Hc. rewrite (output_user ext c Hc).
    rewrite (framework_test_after ext _ _ Hk) by reflexivity.
    rewrite (proj2 (framework_test_spec c)) by (right; exact Hc).
    reflexivity. }
  assert (UMDF_VERSION_MAJOR ∈ cfg ∪ {[ KMDF_VERSION_MAJOR ]}) as Hwith
    by (apply elem_of_union; left; exact Hu).
  assert (UMDF_VERSION_MAJOR ∈ cfg ∖ {[ KMDF_VERSION_MAJOR ]}) as Hwithout.
  { apply elem_of_difference. split; [exact Hu|].
    rewrite elem_of_singleton. discriminate. }
  rewrite (Hrun _ Hwith), (Hrun _ Hwithout).
  repeat split. apply input_h_done.
Qed.

Lemma umdf_overrides_kmdf_witness :
  keeps_versions guarded ∧
  UMDF_VERSION_MAJOR ∈ ({[ UMDF_VERSION_MAJOR ]} : gset string) ∧
  output guarded ({[ UMDF_VERSION_MAJOR ]} ∪ {[ KMDF_VERSION_MAJOR ]})
    = output guarded ({[ UMDF_VERSION_MAJOR ]} ∖ {[ KMDF_VERSION_MAJOR ]}).
Proof.
  split; [exact guarded_keeps|].
  split; [apply elem_of_singleton; reflexivity|].
  apply (umdf_overrides_kmdf guarded guarded_keeps {[ UMDF_VERSION_MAJOR ]}).
  apply elem_of_singleton. reflexivity.
Defined.

(** ** Layout in general *)

Lemma align_up_ge n a : 0 < a → n ≤ align_up n a.
Proof.
  intros Ha. unfold align_up.
  pose proof (N.div_mod (n + a - 1) a ltac:(lia)) as Hdm.
  pose proof (N.mod_lt (n + a - 1) a ltac:(lia)) as Hlt.
  generalize dependent ((n + a - 1) / a). generalize dependent ((n + a - 1) mod a).
  intros r Hlt q Hdm. rewrite (N.mul_comm q a). lia.
Qed.

Lemma align_up_multiple n a : 0 < a → align_up n a mod a = 0.
Proof. intros Ha. unfold align_up. apply N.Div0.mod_mul. Qed.

Lemma max_from_1_pos l : 0 < foldr N.max 1 l.
Proof. induction l as [|a l IH]; simpl; lia. Qed.

Lemma slots_align_pos ss : 0 < slots_align ss.
Proof. apply max_from_1_pos. Qed.

Lemma ikind_size_pos k : 0 < ikind_size k.
Proof. destruct k; reflexivity. Qed.

Lemma alignof_pos t : 0 < alignof t.
Proof.
  destruct t as [k|ms|ms]; simpl;
    [apply ikind_size_pos | apply max_from_1_pos | apply max_from_1_pos].
Qed.

Lemma slot_of_align_pos m : 0 < sl_align (slot_of m).
Proof.
  destruct m as [n t|n k w|t]; simpl;
    [apply alignof_pos | apply ikind_size_pos | apply alignof_pos].
Qed.

(** A step of struct layout never moves the first free byte back, and a
    member that is not a bit-field moves it on by the member's size at
    least. *)
Lemma place_member_advances c s :
  0 < sl_align s →
  c_next c + match sl_bits s with None => sl_size s | Some _ => 0 end
  ≤ c_next (snd (place_member c s)).
Proof.
  intros Ha. pose proof (align_up_ge (c_next c) (sl_align s) Ha) as Hup.
  unfold place_member, open_unit. destruct (sl_bits s) as [w|].
  - destruct (c_unit c) as [[[us uo] used]|];
      [destruct ((us =? sl_size s) && (used + w <=? 8 * us))|]; simpl; lia.
  - simpl. lia.
Qed.

Lemma place_struct_advances ss :
  Forall (λ s, 0 < sl_align s) ss →
  ∀ c, c_next c + plain_total ss ≤ snd (place_struct c ss).
Proof.
  induction 1 as [|s ss Hs _ IH]; intros c; simpl; [lia|].
  pose proof (place_member_advances c s Hs) as Hstep.
  destruct (place_member c s) as [p c'].
  specialize (IH c'). destruct (place_struct c' ss) as [ps e].
  simpl in *. lia.
Qed.

(** Whatever the padding, a struct is at least as large as its members
    that are not bit-fields taken together. *)
Lemma struct_holds_fields ms :
  plain_total (map slot_of ms) ≤ sizeof (TStruct ms).
Proof.
  change (sizeof (TStruct ms)) with (struct_size (map slot_of ms)).
  unfold struct_size.
  etrans; [|apply align_up_ge, slots_align_pos].
  assert (Forall (λ s, 0 < sl_align s) (map slot_of ms)) as Hpos.
  { apply Forall_forall. intros s Hin.
    apply list_elem_of_In, in_map_iff in Hin as (m & <- & _).
    apply slot_of_align_pos. }
  pose proof (place_struct_advances _ Hpos (Cursor 0 None)) as Hadv.
  simpl in Hadv. lia.
Qed.

Lemma max_size_ge (s : slot) ss :
  s ∈ ss → sl_size s ≤ foldr N.max 0 (map sl_size ss).
Proof.
  induction ss as [|s' ss IH]; intros Hin.
  - inversion Hin.
  - apply elem_of_cons in Hin as [->|Hin]; simpl; [lia|].
    specialize (IH Hin). lia.
Qed.

(** A union is at least as large as each of its members: a member bounds
    the size of the union from below and does not fix it. *)
Lemma union_holds_slot ms m :
  m ∈ ms → sl_size (slot_of m) ≤ sizeof (TUnion ms).
Proof.
  intros Hin. simpl. unfold union_size.
  etrans; [|apply align_up_ge, slots_align_pos].
  apply (max_size_ge (slot_of m)).
  apply list_elem_of_In, in_map, list_elem_of_In, Hin.
Qed.

Lemma union_holds_member ms n t :
  Field n t ∈ ms → sizeof t ≤ sizeof (TUnion ms).
Proof. apply (union_holds_slot ms (Field n t)). Qed.

Lemma union_holds_anonymous ms t :
  Anon t ∈ ms → sizeof t ≤ sizeof (TUnion ms).
Proof. apply (union_holds_slot ms (Anon t)). Qed.

(** Without running the layout: each gap-filled union holds a struct whose
    plain fields alone take 16 resp. 14 bytes. *)
Lemma gap_unions_hold_their_fields :
  16 ≤ sizeof _KGDTENTRY64 ∧ 14 ≤ sizeof _KIDTENTRY64.
Proof.
  split.
  - unfold _KGDTENTRY64.
    match goal with |- _ ≤ sizeof (TUnion (Anon (TStruct ?ms) :: ?r)) =>
      etrans; [|apply (union_holds_anonymous _ (TStruct ms)), list_elem_of_here];
      etrans; [|apply struct_holds_fields] end.
    vm_compute. discriminate.
  - unfold _KIDTENTRY64.
    match goal with |- _ ≤ sizeof (TUnion (Anon (TStruct ?ms) :: ?r)) =>
      etrans; [|apply (union_holds_anonymous _ (TStruct ms)), list_elem_of_here];
      etrans; [|apply struct_holds_fields] end.
    vm_compute. discriminate.
Qed.

(** The size of a union is a multiple of the largest alignment among its
    members. *)
Lemma union_size_aligned ms :
  sizeof (TUnion ms) mod slots_align (map slot_of ms) = 0.
Proof. simpl. apply align_up_multiple, slots_align_pos. Qed.

(** ** The gap-filled unions *)

Lemma typedefs_kernel ext cfg :
  UMDF_VERSION_MAJOR ∉ cfg →
  typedefs (output ext cfg) = [KGDTENTRY64; KIDTENTRY64].
Proof.
  intros Hu. rewrite (output_kernel ext cfg Hu).
  match goal with |- context [if ?b then _ else _] => destruct b end;
    reflexivity.
Qed.

(** C1, as the code has it. Whenever the declarations are emitted
    ([UMDF_VERSION_MAJOR] undefined) they are [KGDTENTRY64] and
    [KIDTENTRY64], and each has size 16 bytes, two 64-bit units, and
    alignment 8. *)
Theorem gap_sizes ext cfg :
  UMDF_VERSION_MAJOR ∉ cfg →
  td_name <$> typedefs (output ext cfg) = ["KGDTENTRY64"; "KIDTENTRY64"] ∧
  Forall (λ d, sizeof (td_type d) = 16 ∧ alignof (td_type d) = 8)
         (typedefs (output ext cfg)).
Proof.
  intros Hu. rewrite (typedefs_kernel ext cfg Hu).
  split; [reflexivity|].
  repeat constructor; vm_compute; reflexivity.
Qed.

Lemma kmdf_only_is_kernel : UMDF_VERSION_MAJOR ∉ ({[ KMDF_VERSION_MAJOR ]} : gset string).
Proof. rewrite not_elem_of_singleton. discriminate. Defined.

Lemma gap_sizes_witness :
  (UMDF_VERSION_MAJOR ∉ ({[ KMDF_VERSION_MAJOR ]} : gset string)) ∧
  td_name <$> typedefs (output guarded {[ KMDF_VERSION_MAJOR ]})
    = ["KGDTENTRY64"; "KIDTENTRY64"] ∧
  Forall (λ d, sizeof (td_type d) = 16 ∧ alignof (td_type d) = 8)
         (typedefs (output guarded {[ KMDF_VERSION_MAJOR ]})).
Proof.
  split; [exact kmdf_only_is_kernel|].
  exact (gap_sizes guarded {[ KMDF_VERSION_MAJOR ]} kmdf_only_is_kernel).
Defined.

(** C1 as stated fails: with nothing defined both unions are emitted and
    neither has size 8. *)
Lemma gap_sizes_not_8 :
  (UMDF_VERSION_MAJOR ∉ (∅ : gset string)) ∧
  typedefs (output silent ∅) = [KGDTENTRY64; KIDTENTRY64] ∧
  sizeof (td_type KGDTENTRY64) ≠ 8 ∧
  sizeof (td_type KIDTENTRY64) ≠ 8.
Proof.
  split; [apply not_elem_of_empty|].
  split; [reflexivity|].
  split; vm_compute; discriminate.
Qed.

(** C2, as the code has it. In each union [Alignment] is an
    [unsigned __int64] at offset 0, 8 bytes wide, and the union is 16 bytes
    with alignment 8: the member lies over bits 0..63, the first half, and
    the last two fields of the struct member lie beyond it.  The other
    member, the struct, has 16 bytes and alignment 4, and so has the union
    without [Alignment]: the member raises the alignment from 4 to 8 and
    leaves the size as it is.  In any union a member bounds the size from
    below only. *)
Theorem alignment_member :
  Forall (λ u,
      locate u "Alignment" = Some (Found (Place 0 0 64) uint64) ∧
      member_size u "Alignment" = Some 8 ∧
      alignof u = 8 ∧
      sizeof u = 2 * 8 ∧
      ∃ s, u = TUnion [Anon s; Field "Alignment" uint64] ∧
           sizeof s = 16 ∧ alignof s = 4 ∧
           sizeof (TUnion [Anon s]) = 16 ∧ alignof (TUnion [Anon s]) = 4)
    [_KGDTENTRY64; _KIDTENTRY64] ∧
  map (bits_at _KGDTENTRY64) [["Alignment"]; ["BaseUpper"]; ["MustBeZero"]]
    = [Some (0, 64); Some (64, 96); Some (96, 128)] ∧
  map (bits_at _KIDTENTRY64) [["Alignment"]; ["OffsetHigh"]; ["Reserved1"]]
    = [Some (0, 64); Some (64, 96); Some (96, 128)] ∧
  (∀ ms n t, Field n t ∈ ms → sizeof t ≤ sizeof (TUnion ms)).
Proof.
  split; [|split; [|split]].
  - apply Forall_cons. split; [|apply Forall_cons; split; [|apply Forall_nil]].
    all: repeat split; try (vm_compute; reflexivity).
    all: eexists; split; [reflexivity|]; repeat split; vm_compute; reflexivity.
  - vm_compute; reflexivity.
  - vm_compute; reflexivity.
  - exact union_holds_member.
Qed.

(** C2 as stated fails: in both unions [Alignment] has 8 bytes and the
    union 16. *)
Lemma alignment_member_not_whole :
  member_size _KGDTENTRY64 "Alignment" ≠ Some (sizeof _KGDTENTRY64) ∧
  member_size _KIDTENTRY64 "Alignment" ≠ Some (sizeof _KIDTENTRY64).
Proof. split; vm_compute; discriminate. Qed.

(** C7. In the kernel-mode branch [KGDTENTRY64] names a union whose
    members are, in order, [LimitLow], [BaseLow], the sub-views [Bytes] and
    [Bits], [BaseUpper], [MustBeZero] (and [Alignment]).  [Bytes] is four
    single bytes, [Bits] ten bit-fields of the stated widths, 32 bits in
    all; the two occupy the same bits 32..63, after [LimitLow] and
    [BaseLow] and before [BaseUpper] and [MustBeZero]. *)
Theorem KGDTENTRY64_declared ext cfg :
  UMDF_VERSION_MAJOR ∉ cfg →
  ∃ t,
    td_type <$> find_typedef "KGDTENTRY64" (output ext cfg) = Some t ∧
    fields t =
      [("LimitLow", None); ("BaseLow", None); ("Bytes", None); ("Bits", None);
       ("BaseUpper", None); ("MustBeZero", None); ("Alignment", None)] ∧
    members_at t ["Bytes"] =
      Some [("BaseMiddle", None); ("Flags1", None); ("Flags2", None);
            ("BaseHigh", None)] ∧
    members_at t ["Bits"] =
      Some [("BaseMiddle", Some (ULong, 8)); ("Type", Some (ULong, 5));
            ("Dpl", Some (ULong, 2)); ("Present", Some (ULong, 1));
            ("LimitHigh", Some (ULong, 4)); ("System", Some (ULong, 1));
            ("LongMode", Some (ULong, 1)); ("DefaultBig", Some (ULong, 1));
            ("Granularity", Some (ULong, 1)); ("BaseHigh", Some (ULong, 8))] ∧
    (λ f, sum_widths (bit_fields (f_type f))) <$> locate t "Bits" = Some 32 ∧
    (λ s, 8 * s) <$> member_size t "Bytes" = Some 32 ∧
    member_size t "Bits" = Some 4 ∧
    map (bits_at t) [["LimitLow"]; ["BaseLow"]; ["Bytes"]; ["Bits"];
                     ["BaseUpper"]; ["MustBeZero"]]
      = [Some (0, 16); Some (16, 32); Some (32, 64); Some (32, 64);
         Some (64, 96); Some (96, 128)] ∧
    map (λ n, bits_at t ["Bytes"; n]) ["BaseMiddle"; "Flags1"; "Flags2"; "BaseHigh"]
      = [Some (32, 40); Some (40, 48); Some (48, 56); Some (56, 64)] ∧
    map (λ n, bits_at t ["Bits"; n])
        ["BaseMiddle"; "Type"; "Dpl"; "Present"; "LimitHigh"; "System";
         "LongMode"; "DefaultBig"; "Granularity"; "BaseHigh"]
      = [Some (32, 40); Some (40, 45); Some (45, 47); Some (47, 48);
         Some (48, 52); Some (52, 53); Some (53, 54); Some (54, 55);
         Some (55, 56); Some (56, 64)].
Proof.
  intros Hu. exists _KGDTENTRY64.
  split.
  - unfold find_typedef. rewrite (typedefs_kernel ext cfg Hu). reflexivity.
  - repeat split; vm_compute; reflexivity.
Qed.

Lemma KGDTENTRY64_declared_witness :
  (UMDF_VERSION_MAJOR ∉ ({[ KMDF_VERSION_MAJOR ]} : gset string)) ∧
  ∃ t,
    td_type <$> find_typedef "KGDTENTRY64" (output guarded {[ KMDF_VERSION_MAJOR ]}) = Some t ∧
    (λ f, sum_widths (bit_fields (f_type f))) <$> locate t "Bits" = Some 32 ∧
    bits_at t ["Bytes"] = bits_at t ["Bits"].
Proof.
  split; [exact kmdf_only_is_kernel|].
  destruct (KGDTENTRY64_declared guarded {[ KMDF_VERSION_MAJOR ]} kmdf_only_is_kernel)
    as (t & Hfind & _ & _ & _ & Hsum & _ & _ & Hbits & _).
  exists t. split; [exact Hfind|]. split; [exact Hsum|].
  simpl in Hbits. congruence.
Defined.

(** C8, as the code has it. In the kernel-mode branch [KIDTENTRY64] names
    a union whose members are, in order, [OffsetLow], [Selector], the
    bit-fields [IstIndex:3], [Reserved0:5], [Type:5], [Dpl:2],
    [Present:1], then [OffsetMiddle], [OffsetHigh], [Reserved1]; these ten
    form one member of the union and the other is [Alignment], an
    [unsigned __int64].  [Alignment] lies over the first 64 of the
    union's 128 bits: it shares bits with the members from [OffsetLow] to
    [OffsetMiddle] and with no other. *)
Theorem KIDTENTRY64_declared ext cfg :
  UMDF_VERSION_MAJOR ∉ cfg →
  ∃ t,
    td_type <$> find_typedef "KIDTENTRY64" (output ext cfg) = Some t ∧
    fields t =
      [("OffsetLow", None); ("Selector", None);
       ("IstIndex", Some (UShort, 3)); ("Reserved0", Some (UShort, 5));
       ("Type", Some (UShort, 5)); ("Dpl", Some (UShort, 2));
       ("Present", Some (UShort, 1));
       ("OffsetMiddle", None); ("OffsetHigh", None); ("Reserved1", None);
       ("Alignment", None)] ∧
    map (λ n, bits_at t [n])
        ["OffsetLow"; "Selector"; "IstIndex"; "Reserved0"; "Type"; "Dpl";
         "Present"; "OffsetMiddle"; "OffsetHigh"; "Reserved1"]
      = [Some (0, 16); Some (16, 32); Some (32, 35); Some (35, 40);
         Some (40, 45); Some (45, 47); Some (47, 48); Some (48, 64);
         Some (64, 96); Some (96, 128)] ∧
    locate t "Alignment" = Some (Found (Place 0 0 64) uint64) ∧
    (∃ s, t = TUnion [Anon s; Field "Alignment" uint64] ∧
          map fst (fields s) =
            ["OffsetLow"; "Selector"; "IstIndex"; "Reserved0"; "Type"; "Dpl";
             "Present"; "OffsetMiddle"; "OffsetHigh"; "Reserved1"]) ∧
    bits_at t ["Alignment"] = Some (0, 64) ∧
    8 * sizeof t = 128 ∧
    List.filter (λ n, overlaps t ["Alignment"] [n])
        ["OffsetLow"; "Selector"; "IstIndex"; "Reserved0"; "Type"; "Dpl";
         "Present"; "OffsetMiddle"; "OffsetHigh"; "Reserved1"]
      = ["OffsetLow"; "Selector"; "IstIndex"; "Reserved0"; "Type"; "Dpl";
         "Present"; "OffsetMiddle"].
Proof.
  intros Hu. exists _KIDTENTRY64.
  split.
  - unfold find_typedef. rewrite (typedefs_kernel ext cfg Hu). reflexivity.
  - repeat split; try (vm_compute; reflexivity).
    eexists. split; reflexivity.
Qed.

Lemma KIDTENTRY64_declared_witness :
  (UMDF_VERSION_MAJOR ∉ ({[ KMDF_VERSION_MAJOR ]} : gset string)) ∧
  ∃ t,
    td_type <$> find_typedef "KIDTENTRY64" (output guarded {[ KMDF_VERSION_MAJOR ]}) = Some t ∧
    locate t "Alignment" = Some (Found (Place 0 0 64) uint64).
Proof.
  split; [exact kmdf_only_is_kernel|].
  destruct (KIDTENTRY64_declared guarded {[ KMDF_VERSION_MAJOR ]} kmdf_only_is_kernel)
    as (t & Hfind & _ & _ & Hal & _).
  exists t. split; [exact Hfind | exact Hal].
Defined.

(** C8 as stated fails: in the [KIDTENTRY64] the kernel-mode branch
    declares, [Alignment] ends at bit 64 of 128 and has no bit in common
    with [OffsetHigh] and [Reserved1], so it does not lie over the whole
    union. *)
Lemma KIDTENTRY64_Alignment_not_over_whole :
  (UMDF_VERSION_MAJOR ∉ (∅ : gset string)) ∧
  td_type <$> find_typedef "KIDTENTRY64" (output silent ∅) = Some _KIDTENTRY64 ∧
  bits_at _KIDTENTRY64 ["Alignment"] = Some (0, 64) ∧
  bits_at _KIDTENTRY64 ["OffsetHigh"] = Some (64, 96) ∧
  bits_at _KIDTENTRY64 ["Reserved1"] = Some (96, 128) ∧
  overlaps _KIDTENTRY64 ["Alignment"] ["OffsetHigh"] = false ∧
  overlaps _KIDTENTRY64 ["Alignment"] ["Reserved1"] = false ∧
  bits_at _KIDTENTRY64 ["Alignment"] ≠ Some (0, 8 * sizeof _KIDTENTRY64).
Proof.
  split; [apply not_elem_of_empty|].
  repeat split; try (vm_compute; reflexivity).
  vm_compute. discriminate.
Qed.

(** C10. The five bit-fields of [KIDTENTRY64] are all [unsigned short],
    their widths add up to 16, the size of an [unsigned short]; all five
    lie in the one unit at byte 4, back to back over bits 32..47, and
    [OffsetMiddle] starts at byte 6. *)
Theorem KIDTENTRY64_bit_fields :
  bit_fields _KIDTENTRY64 =
    [("IstIndex", UShort, 3); ("Reserved0", UShort, 5); ("Type", UShort, 5);
     ("Dpl", UShort, 2); ("Present", UShort, 1)] ∧
  Forall (λ '(_, k, _), k = UShort) (bit_fields _KIDTENTRY64) ∧
  sum_widths (bit_fields _KIDTENTRY64) = 16 ∧
  8 * ikind_size UShort = 16 ∧
  map (λ '(n, _, _), offset_of _KIDTENTRY64 n) (bit_fields _KIDTENTRY64)
    = [Some 4; Some 4; Some 4; Some 4; Some 4] ∧
  map (λ '(n, _, _), bits_at _KIDTENTRY64 [n]) (bit_fields _KIDTENTRY64)
    = [Some (32, 35); Some (35, 40); Some (40, 45); Some (45, 47); Some (47, 48)] ∧
  offset_of _KIDTENTRY64 "OffsetMiddle" = Some 6.
Proof.
  repeat split; try (vm_compute; reflexivity).
  repeat constructor.
Qed.

(** * Further properties *)

(** ** Bits of an object *)

Lemma get_testbit obj r i :
  N.testbit (get obj r) i =
  (i <? snd r - fst r) && N.testbit obj (i + fst r).
Proof.
  unfold get. destruct (N.ltb_spec i (snd r - fst r)) as [Hlt|Hge]; simpl.
  - rewrite N.mod_pow2_bits_low by exact Hlt. apply N.div_pow2_bits.
  - apply N.mod_pow2_bits_high. exact Hge.
Qed.

Lemma put_testbit obj r v i :
  N.testbit (put obj r v) i =
  if (fst r <=? i) && (i <? snd r) then N.testbit v (i - fst r)
  else N.testbit obj i.
Proof.
  unfold put. rewrite N.lor_spec, N.ldiff_spec.
  destruct (N.leb_spec (fst r) i) as [Hle|Hlt]; simpl.
  - rewrite !N.shiftl_spec_high' by exact Hle.
    destruct (N.ltb_spec i (snd r)) as [Hin|Hout].
    + rewrite N.ones_spec_low by lia.
      rewrite N.mod_pow2_bits_low by lia.
      rewrite andb_false_r. reflexivity.
    + rewrite N.ones_spec_high by lia.
      rewrite N.mod_pow2_bits_high by lia.
      rewrite andb_true_r, orb_false_r. reflexivity.
  - rewrite !N.shiftl_spec_low by exact Hlt.
    rewrite andb_true_r, orb_false_r. reflexivity.
Qed.

(** A store followed by a load of the same member gives the value cut to
    the member's width. *)
Lemma get_put_same obj r v :
  get (put obj r v) r = v mod 2 ^ (snd r - fst r).
Proof.
  apply N.bits_inj. intros i. rewrite get_testbit, put_testbit.
  destruct (N.ltb_spec i (snd r - fst r)) as [Hlt|Hge]; simpl.
  - rewrite N.mod_pow2_bits_low by exact Hlt.
    replace ((fst r <=? i + fst r) && (i + fst r <? snd r)) with true.
    + f_equal. lia.
    + symmetry. apply andb_true_iff. split; [apply N.leb_le | apply N.ltb_lt]; lia.
  - rewrite N.mod_pow2_bits_high by exact Hge. reflexivity.
Qed.

(** A store to one range leaves a range that shares no bit with it. *)
Lemma get_put_disjoint obj r1 r2 v :
  disjoint_ranges r1 r2 = true →
  get (put obj r1 v) r2 = get obj r2.
Proof.
  unfold disjoint_ranges. rewrite !andb_true_iff, orb_true_iff, !N.leb_le.
  intros [[H1 H2] Hd].
  apply N.bits_inj. intros i. rewrite !get_testbit, put_testbit.
  destruct (N.ltb_spec i (snd r2 - fst r2)) as [Hlt|Hge]; simpl; [|reflexivity].
  replace ((fst r1 <=? i + fst r2) && (i + fst r2 <? snd r1)) with false;
    [reflexivity|].
  symmetry. apply andb_false_iff.
  destruct Hd as [Hd|Hd]; [right; apply N.ltb_ge | left; apply N.leb_gt]; lia.
Qed.

(** A store to a range shows in a range inside it as the matching bits of
    the value. *)
Lemma get_put_inside obj a b c d v :
  a ≤ c → c ≤ d → d ≤ b →
  get (put obj (a, b) v) (c, d) = get v (c - a, d - a).
Proof.
  intros Hac Hcd Hdb.
  apply N.bits_inj. intros i. rewrite !get_testbit, put_testbit. simpl.
  replace (d - a - (c - a)) with (d - c) by lia.
  destruct (N.ltb_spec i (d - c)) as [Hlt|Hge]; simpl; [|reflexivity].
  replace ((a <=? i + c) && (i + c <? b)) with true.
  - f_equal. lia.
  - symmetry. apply andb_true_iff. split; [apply N.leb_le | apply N.ltb_lt]; lia.
Qed.

(** A store does not make the object longer. *)
Lemma put_bound obj r v n :
  obj < 2 ^ n → snd r ≤ n → put obj r v < 2 ^ n.
Proof.
  intros Hobj Hr.
  assert (put obj r v mod 2 ^ n = put obj r v) as <-.
  { apply N.bits_inj. intros i.
    destruct (N.ltb_spec i n) as [Hlt|Hge].
    - apply N.mod_pow2_bits_low. exact Hlt.
    - rewrite N.mod_pow2_bits_high by exact Hge.
      rewrite put_testbit.
      replace ((fst r <=? i) && (i <? snd r)) with false.
      + rewrite <- (N.mod_small obj (2 ^ n)) by exact Hobj.
        symmetry. apply N.mod_pow2_bits_high. exact Hge.
      + symmetry. apply andb_false_iff. right. apply N.ltb_ge. lia. }
  apply N.mod_lt. apply N.pow_nonzero. discriminate.
Qed.

(** A range read in two pieces. *)
Lemma get_split obj a b c :
  a ≤ b → b ≤ c →
  get obj (a, c) = get obj (a, b) + 2 ^ (b - a) * get obj (b, c).
Proof.
  intros Hab Hbc. unfold get. simpl.
  replace (c - a) with ((b - a) + (c - b)) by lia.
  rewrite N.pow_add_r, N.Div0.mod_mul_r.
  rewrite N.Div0.div_div, <- N.pow_add_r.
  replace (a + (b - a)) with b by lia.
  reflexivity.
Qed.

Lemma consecutive_le rs : ∀ a c, consecutive a rs c = true → a ≤ c.
Proof.
  induction rs as [|r rs IH]; intros a c; simpl.
  - intros H. apply N.eqb_eq in H. lia.
  - rewrite !andb_true_iff, N.leb_le. intros [[_ Hle] Hrest].
    specialize (IH _ _ Hrest). lia.
Qed.

(** Ranges that follow one another without a gap carry, together, what
    the range from the first to the last carries. *)
Lemma glue_consecutive obj rs :
  ∀ a c, consecutive a rs c = true → glue obj rs = get obj (a, c) * 2 ^ a.
Proof.
  induction rs as [|r rs IH]; intros a c; simpl.
  - intros H. apply N.eqb_eq in H. subst c.
    unfold get. simpl. rewrite N.sub_diag. simpl. rewrite N.mod_1_r. reflexivity.
  - rewrite !andb_true_iff, N.eqb_eq, N.leb_le. intros [[Hfst Hle] Hrest].
    destruct r as [a' b]. simpl in *. subst a'.
    pose proof (consecutive_le _ _ _ Hrest) as Hbc.
    rewrite (IH _ _ Hrest), (get_split obj a b c Hle Hbc).
    replace (2 ^ b) with (2 ^ a * 2 ^ (b - a)).
    + lia.
    + rewrite <- N.pow_add_r. f_equal. lia.
Qed.

Lemma get_whole obj n : obj < 2 ^ n → get obj (0, n) = obj.
Proof.
  intros H. unfold get. simpl. rewrite N.div_1_r, N.sub_0_r.
  apply N.mod_small. exact H.
Qed.

Lemma glue_ext o1 o2 rs :
  Forall (λ r, get o1 r = get o2 r) rs → glue o1 rs = glue o2 rs.
Proof.
  induction 1 as [|r rs Hr _ IH]; simpl; [reflexivity|].
  rewrite Hr, IH. reflexivity.
Qed.

(** ** Runs of the header, further *)

(** With base headers that keep the version macros, the output is made
    of the base layer chosen by [UMDF_VERSION_MAJOR] and of [wdf.h] when
    either macro is defined. *)
Lemma output_formula ext cfg :
  keeps_versions ext →
  output ext cfg =
    ((if defined UMDF_VERSION_MAJOR cfg
      then [Include (Angle "windows.h")]
      else [Include (Quote "ntifs.h"); Include (Quote "ntddk.h");
            Decl KGDTENTRY64; Decl KIDTENTRY64]) ++
     (if defined KMDF_VERSION_MAJOR cfg || defined UMDF_VERSION_MAJOR cfg
      then [Include wdf_h] else []))%list.
Proof.
  intros Hk. destruct (decide (UMDF_VERSION_MAJOR ∈ cfg)) as [Hu|Hu].
  - rewrite (output_user ext cfg Hu).
    rewrite (framework_test_after ext _ _ Hk) by reflexivity.
    unfold defined at 3. rewrite (bool_decide_eq_true_2 _ Hu). reflexivity.
  - rewrite (output_kernel ext cfg Hu).
    rewrite !(framework_test_after ext _ _ Hk) by reflexivity.
    unfold defined at 3. rewrite (bool_decide_eq_false_2 _ Hu). reflexivity.
Qed.



(** In the kernel-mode branch the framework layer only adds: defining
    [KMDF_VERSION_MAJOR] appends [wdf.h] to what the run leaves without it
    and changes nothing before it. *)
Theorem framework_is_additive ext cfg :
  keeps_versions ext →
  UMDF_VERSION_MAJOR ∉ cfg →
  output ext (cfg ∪ {[ KMDF_VERSION_MAJOR ]})
    = (output ext (cfg ∖ {[ KMDF_VERSION_MAJOR ]}) ++ [Include wdf_h])%list ∧
  wdf_h ∉ included (output ext (cfg ∖ {[ KMDF_VERSION_MAJOR ]})).
Proof.
  intros Hk Hu. rewrite !(output_formula ext _ Hk). unfold defined.
  assert (UMDF_VERSION_MAJOR ∉ cfg ∪ {[ KMDF_VERSION_MAJOR ]}) as Hu1.
  { rewrite elem_of_union, elem_of_singleton.
    intros [H|H]; [exact (Hu H) | discriminate H]. }
  assert (UMDF_VERSION_MAJOR ∉ cfg ∖ {[ KMDF_VERSION_MAJOR ]}) as Hu2.
  { rewrite elem_of_difference. intros [H _]. exact (Hu H). }
  assert (KMDF_VERSION_MAJOR ∈ cfg ∪ {[ KMDF_VERSION_MAJOR ]}) as Hk1.
  { rewrite elem_of_union, elem_of_singleton. right. reflexivity. }
  assert (KMDF_VERSION_MAJOR ∉ cfg ∖ {[ KMDF_VERSION_MAJOR ]}) as Hk2.
  { rewrite elem_of_difference, elem_of_singleton. intros [_ H]. apply H. reflexivity. }
  rewrite (bool_decide_eq_false_2 _ Hu1), (bool_decide_eq_false_2 _ Hu2),
          (bool_decide_eq_true_2 _ Hk1), (bool_decide_eq_false_2 _ Hk2).
  split; [reflexivity|].
  simpl. unfold wdf_h. set_unfold. intuition discriminate.
Qed.

Lemma framework_is_additive_witness :
  output guarded (∅ ∪ {[ KMDF_VERSION_MAJOR ]})
    = (output guarded (∅ ∖ {[ KMDF_VERSION_MAJOR ]}) ++ [Include wdf_h])%list.
Proof.
  apply (framework_is_additive guarded ∅ guarded_keeps).
  apply not_elem_of_empty.
Defined.

(** Every run opens with [windows.h] or with [ntifs.h], includes no
    header twice, has [wdf.h], if at all, as its last item, and leaves
    five items at most. *)
Theorem run_skeleton ext cfg :
  (∃ h rest, output ext cfg = Include h :: rest ∧
             (h = Angle "windows.h" ∨ h = Quote "ntifs.h")) ∧
  NoDup (included (output ext cfg)) ∧
  (∀ i : nat, output ext cfg !! i = Some (Include wdf_h) →
              S i = length (output ext cfg)) ∧
  (length (output ext cfg) ≤ 5)%nat.
Proof.
  destruct (output_shape ext cfg); (split; [|split; [|split]]).
  all: try (do 2 eexists; split; [reflexivity | first [left; reflexivity | right; reflexivity]]).
  all: try (apply (bool_decide_unpack _); vm_compute; reflexivity).
  all: try (simpl; lia).
  all: intros i Hi; unfold wdf_h in Hi;
    repeat (destruct i as [|i]; simpl in Hi; try discriminate Hi; try reflexivity).
Qed.



(** A run ends in the macro table the headers it included leave, in the
    order of the output. *)
Lemma input_h_run ext cfg :
  input_h ext cfg =
    Done (foldl (λ env h, ext h env) cfg (included (output ext cfg)))
         (output ext cfg).
Proof.
  unfold output, input_h, seq, if_else, include, decl, skip.
  destruct (defined UMDF_VERSION_MAJOR cfg); simpl;
    match goal with |- context [if ?b then _ else _] => destruct b end;
    reflexivity.
Qed.

(** The header has no include guard.  Read twice in the kernel-mode
    branch, with headers that leave [UMDF_VERSION_MAJOR] undefined, it
    declares each union twice; read twice in the user-mode branch it still
    declares nothing. *)
Theorem read_twice ext cfg :
  (∀ h env, UMDF_VERSION_MAJOR ∈ ext h env ↔ UMDF_VERSION_MAJOR ∈ env) →
  (UMDF_VERSION_MAJOR ∉ cfg →
     definitions "KGDTENTRY64" (items (seq (input_h ext) (input_h ext) cfg)) = 2%nat ∧
     definitions "KIDTENTRY64" (items (seq (input_h ext) (input_h ext) cfg)) = 2%nat) ∧
  (UMDF_VERSION_MAJOR ∈ cfg →
     typedefs (items (seq (input_h ext) (input_h ext) cfg)) = []).
Proof.
  intros Hkeep.
  assert (∀ l env, UMDF_VERSION_MAJOR ∈ foldl (λ env h, ext h env) env l
                   ↔ UMDF_VERSION_MAJOR ∈ env) as Hfold.
  { induction l as [|h l IH]; intros env; simpl; [reflexivity|].
    rewrite IH. apply Hkeep. }
  unfold seq. rewrite (input_h_run ext cfg).
  set (env := foldl _ cfg _).
  rewrite (input_h_run ext env). simpl.
  assert (typedefs (output ext cfg ++ output ext env)
          = (typedefs (output ext cfg) ++ typedefs (output ext env))%list) as Happ
    by apply omap_app.
  split; intros Hu.
  - assert (UMDF_VERSION_MAJOR ∉ env) as Hu' by (unfold env; rewrite Hfold; exact Hu).
    unfold definitions. rewrite Happ.
    rewrite (typedefs_kernel ext cfg Hu), (typedefs_kernel ext env Hu').
    split; reflexivity.
  - assert (UMDF_VERSION_MAJOR ∈ env) as Hu' by (unfold env; rewrite Hfold; exact Hu).
    rewrite Happ.
    rewrite (output_user ext cfg Hu), (output_user ext env Hu').
    repeat match goal with |- context [if ?b then _ else _] => destruct b end;
      reflexivity.
Qed.

Lemma read_twice_witness :
  definitions "KGDTENTRY64" (items (seq (input_h silent) (input_h silent) ∅)) = 2%nat ∧
  typedefs (items (seq (input_h silent) (input_h silent) {[ UMDF_VERSION_MAJOR ]})) = [].
Proof.
  assert (∀ (h : header) (env : gset string),
            UMDF_VERSION_MAJOR ∈ silent h env ↔ UMDF_VERSION_MAJOR ∈ env) as Hs
    by (intros h env; reflexivity).
  split.
  - apply (proj1 (read_twice silent ∅ Hs)). apply not_elem_of_empty.
  - apply (proj2 (read_twice silent {[ UMDF_VERSION_MAJOR ]} Hs)).
    apply elem_of_singleton. reflexivity.
Defined.

(** ** Member access on the two unions *)

(** Replace the paths in the goal by the ranges the layout gives them. *)
Ltac ranges :=
  unfold read, write, field_ranges;
  repeat match goal with
  | |- context [bits_at ?t ?p] =>
      let r := eval vm_compute in (bits_at t p) in
      change (bits_at t p) with r
  end;
  cbn [fmap option_fmap option_map mbind option_bind omap list_omap fst snd].

(** The two views of the middle of a [KGDTENTRY64] show the same bits:
    [BaseMiddle] and [BaseHigh] read alike through [Bytes] and [Bits], and
    the flag bytes are made of the bit-fields, lowest first. *)
Theorem KGDTENTRY64_views_agree (obj : N) :
  read _KGDTENTRY64 ["Bytes"; "BaseMiddle"] obj
    = read _KGDTENTRY64 ["Bits"; "BaseMiddle"] obj ∧
  read _KGDTENTRY64 ["Bytes"; "BaseHigh"] obj
    = read _KGDTENTRY64 ["Bits"; "BaseHigh"] obj ∧
  read _KGDTENTRY64 ["Bytes"; "Flags1"] obj
    = (ty ← read _KGDTENTRY64 ["Bits"; "Type"] obj;
       dpl ← read _KGDTENTRY64 ["Bits"; "Dpl"] obj;
       p ← read _KGDTENTRY64 ["Bits"; "Present"] obj;
       Some (ty + 32 * dpl + 128 * p)) ∧
  read _KGDTENTRY64 ["Bytes"; "Flags2"] obj
    = (lim ← read _KGDTENTRY64 ["Bits"; "LimitHigh"] obj;
       sys ← read _KGDTENTRY64 ["Bits"; "System"] obj;
       lm ← read _KGDTENTRY64 ["Bits"; "LongMode"] obj;
       db ← read _KGDTENTRY64 ["Bits"; "DefaultBig"] obj;
       g ← read _KGDTENTRY64 ["Bits"; "Granularity"] obj;
       Some (lim + 16 * sys + 32 * lm + 64 * db + 128 * g)) ∧
  is_Some (read _KGDTENTRY64 ["Bytes"; "Flags1"] obj) ∧
  is_Some (read _KGDTENTRY64 ["Bytes"; "Flags2"] obj).
Proof.
  ranges. repeat split; try reflexivity; try (eexists; reflexivity).
  - f_equal.
    rewrite (get_split obj 40 45 48), (get_split obj 45 47 48) by lia.
    change (2 ^ (45 - 40)) with 32. change (2 ^ (47 - 45)) with 4. lia.
  - f_equal.
    rewrite (get_split obj 48 52 56), (get_split obj 52 53 56),
            (get_split obj 53 54 56), (get_split obj 54 55 56) by lia.
    change (2 ^ (52 - 48)) with 16. change (2 ^ (53 - 52)) with 2.
    change (2 ^ (54 - 53)) with 2. change (2 ^ (55 - 54)) with 2. lia.
Qed.

(** Read as one number, [Alignment] is the first eight bytes of the
    object: in a [KIDTENTRY64] the members from [OffsetLow] to
    [OffsetMiddle], each at its place, lowest first; [OffsetHigh] and
    [Reserved1] have no part in it. *)
Theorem KIDTENTRY64_Alignment_reads (obj : N) :
  read _KIDTENTRY64 ["Alignment"] obj
    = (ol ← read _KIDTENTRY64 ["OffsetLow"] obj;
       sel ← read _KIDTENTRY64 ["Selector"] obj;
       ist ← read _KIDTENTRY64 ["IstIndex"] obj;
       r0 ← read _KIDTENTRY64 ["Reserved0"] obj;
       ty ← read _KIDTENTRY64 ["Type"] obj;
       dpl ← read _KIDTENTRY64 ["Dpl"] obj;
       p ← read _KIDTENTRY64 ["Present"] obj;
       om ← read _KIDTENTRY64 ["OffsetMiddle"] obj;
       Some (ol + 2 ^ 16 * sel + 2 ^ 32 * ist + 2 ^ 35 * r0 + 2 ^ 40 * ty
             + 2 ^ 45 * dpl + 2 ^ 47 * p + 2 ^ 48 * om)) ∧
  is_Some (read _KIDTENTRY64 ["Alignment"] obj).
Proof.
  ranges. split; [|eexists; reflexivity]. f_equal.
  pose proof (glue_consecutive obj
    [(0, 16); (16, 32); (32, 35); (35, 40); (40, 45); (45, 47); (47, 48); (48, 64)]
    0 64 eq_refl) as Hglue.
  unfold glue in Hglue. cbn [foldr fst] in Hglue.
  rewrite N.pow_0_r, N.mul_1_r in Hglue. lia.
Qed.

(** In a [KGDTENTRY64], [Alignment] is [LimitLow], [BaseLow] and the four
    bytes of [Bytes]; [BaseUpper] and [MustBeZero] have no part in it. *)
Theorem KGDTENTRY64_Alignment_reads (obj : N) :
  read _KGDTENTRY64 ["Alignment"] obj
    = (ll ← read _KGDTENTRY64 ["LimitLow"] obj;
       bl ← read _KGDTENTRY64 ["BaseLow"] obj;
       bm ← read _KGDTENTRY64 ["Bytes"; "BaseMiddle"] obj;
       f1 ← read _KGDTENTRY64 ["Bytes"; "Flags1"] obj;
       f2 ← read _KGDTENTRY64 ["Bytes"; "Flags2"] obj;
       bh ← read _KGDTENTRY64 ["Bytes"; "BaseHigh"] obj;
       Some (ll + 2 ^ 16 * bl + 2 ^ 32 * bm + 2 ^ 40 * f1 + 2 ^ 48 * f2
             + 2 ^ 56 * bh)) ∧
  is_Some (read _KGDTENTRY64 ["Alignment"] obj).
Proof.
  ranges. split; [|eexists; reflexivity]. f_equal.
  pose proof (glue_consecutive obj
    [(0, 16); (16, 32); (32, 40); (40, 48); (48, 56); (56, 64)]
    0 64 eq_refl) as Hglue.
  unfold glue in Hglue. cbn [foldr fst] in Hglue.
  rewrite N.pow_0_r, N.mul_1_r in Hglue. lia.
Qed.

Lemma omap_shorter {A B} (f : A → option B) (l : list A) :
  (length (omap f l) ≤ length l)%nat.
Proof.
  induction l as [|x l IH]; [simpl; lia|].
  change (omap f (x :: l))
    with (match f x with Some y => y :: omap f l | None => omap f l end).
  destruct (f x); simpl; lia.
Qed.

(** Members that follow one another from bit 0 to the end of the object
    leave no bit of it out: the object is its members put side by side,
    and two objects that agree on every member are the same object. *)
Lemma members_make_object t paths n :
  consecutive 0 (field_ranges t paths) n = true →
  length (field_ranges t paths) = length paths →
  ∀ obj, obj < 2 ^ n →
    glue obj (field_ranges t paths) = obj ∧
    ∀ obj', obj' < 2 ^ n →
      Forall (λ p, read t p obj = read t p obj') paths → obj = obj'.
Proof.
  intros Hcons Hlen obj Hobj.
  assert (∀ o, o < 2 ^ n → glue o (field_ranges t paths) = o) as Hglue.
  { intros o Ho. rewrite (glue_consecutive o _ 0 n Hcons).
    rewrite (get_whole o n Ho), N.pow_0_r, N.mul_1_r. reflexivity. }
  split; [apply Hglue, Hobj|].
  intros obj' Hobj' Hsame.
  rewrite <- (Hglue obj Hobj), <- (Hglue obj' Hobj').
  apply glue_ext. clear Hcons Hglue. unfold field_ranges in *.
  induction paths as [|p paths IH]; [constructor|].
  apply Forall_cons in Hsame as [Hp Hrest]. unfold read in Hp.
  pose proof (omap_shorter (bits_at t) paths) as Hle.
  change (omap (bits_at t) (p :: paths))
    with (match bits_at t p with
          | Some r => r :: omap (bits_at t) paths
          | None => omap (bits_at t) paths
          end) in *.
  destruct (bits_at t p) as [r|].
  - simpl in Hlen, Hp. injection Hlen as Hlen. injection Hp as Hp.
    constructor; [exact Hp|]. apply IH; [exact Hlen | exact Hrest].
  - exfalso. simpl in Hlen. lia.
Qed.

(** The ten members of the struct in [KIDTENTRY64] fill its 16 bytes: an
    object is its members put side by side, and two objects that agree on
    all ten are equal. *)
Theorem KIDTENTRY64_no_padding obj :
  obj < 2 ^ (8 * sizeof _KIDTENTRY64) →
  glue obj (field_ranges _KIDTENTRY64 KIDTENTRY64_fields) = obj ∧
  ∀ obj', obj' < 2 ^ (8 * sizeof _KIDTENTRY64) →
    Forall (λ p, read _KIDTENTRY64 p obj = read _KIDTENTRY64 p obj')
           KIDTENTRY64_fields →
    obj = obj'.
Proof. apply members_make_object; vm_compute; reflexivity. Qed.

Lemma KIDTENTRY64_no_padding_witness :
  2 ^ 100 + 12345 < 2 ^ (8 * sizeof _KIDTENTRY64) ∧
  glue (2 ^ 100 + 12345) (field_ranges _KIDTENTRY64 KIDTENTRY64_fields)
    = 2 ^ 100 + 12345.
Proof.
  assert (2 ^ 100 + 12345 < 2 ^ (8 * sizeof _KIDTENTRY64)) as Hlt
    by (vm_compute; reflexivity).
  split; [exact Hlt|].
  exact (proj1 (KIDTENTRY64_no_padding _ Hlt)).
Defined.

(** The members of the struct in [KGDTENTRY64] fill its 16 bytes, with the
    middle read through [Bits] as well as through [Bytes]: either way two
    objects that agree on every member are equal. *)
Theorem KGDTENTRY64_no_padding obj :
  obj < 2 ^ (8 * sizeof _KGDTENTRY64) →
  glue obj (field_ranges _KGDTENTRY64 KGDTENTRY64_fields_bits) = obj ∧
  glue obj (field_ranges _KGDTENTRY64 KGDTENTRY64_fields_bytes) = obj ∧
  ∀ obj', obj' < 2 ^ (8 * sizeof _KGDTENTRY64) →
    Forall (λ p, read _KGDTENTRY64 p obj = read _KGDTENTRY64 p obj')
           KGDTENTRY64_fields_bits
    ∨ Forall (λ p, read _KGDTENTRY64 p obj = read _KGDTENTRY64 p obj')
             KGDTENTRY64_fields_bytes →
    obj = obj'.
Proof.
  intros Hobj.
  pose proof (members_make_object _KGDTENTRY64 KGDTENTRY64_fields_bits
                (8 * sizeof _KGDTENTRY64) eq_refl eq_refl obj Hobj) as [Hbits Hbits'].
  pose proof (members_make_object _KGDTENTRY64 KGDTENTRY64_fields_bytes
                (8 * sizeof _KGDTENTRY64) eq_refl eq_refl obj Hobj) as [Hbytes Hbytes'].
  split; [exact Hbits|]. split; [exact Hbytes|].
  intros obj' Hobj' [H|H]; auto.
Qed.

Lemma KGDTENTRY64_no_padding_witness :
  2 ^ 100 + 12345 < 2 ^ (8 * sizeof _KGDTENTRY64) ∧
  glue (2 ^ 100 + 12345) (field_ranges _KGDTENTRY64 KGDTENTRY64_fields_bits)
    = 2 ^ 100 + 12345.
Proof.
  assert (2 ^ 100 + 12345 < 2 ^ (8 * sizeof _KGDTENTRY64)) as Hlt
    by (vm_compute; reflexivity).
  split; [exact Hlt|].
  exact (proj1 (KGDTENTRY64_no_padding _ Hlt)).
Defined.

Lemma independent_spec t paths p1 p2 :
  independent t paths = true → p1 ∈ paths → p2 ∈ paths → p1 ≠ p2 →
  ∃ r1 r2, bits_at t p1 = Some r1 ∧ bits_at t p2 = Some r2 ∧
           disjoint_ranges r1 r2 = true.
Proof.
  unfold independent. rewrite forallb_forall.
  intros Hall H1 H2 Hne.
  apply list_elem_of_In in H1, H2.
  specialize (Hall p1 H1). rewrite forallb_forall in Hall.
  specialize (Hall p2 H2).
  destruct (bits_at t p1) as [r1|]; [|discriminate].
  destruct (bits_at t p2) as [r2|]; [|discriminate].
  rewrite (bool_decide_eq_false_2 _ Hne) in Hall.
  eauto.
Qed.

Lemma within_spec t paths p :
  within t paths = true → p ∈ paths →
  ∃ r, bits_at t p = Some r ∧ snd r ≤ 8 * sizeof t.
Proof.
  unfold within. rewrite forallb_forall. intros Hall Hp.
  apply list_elem_of_In in Hp. specialize (Hall p Hp).
  destruct (bits_at t p) as [r|]; [|discriminate].
  apply N.leb_le in Hall. eauto.
Qed.

(** Among members no two of which share a bit, a store to one reads back
    cut to its width, changes no other, and keeps the object's size. *)
Lemma stores_are_local t paths p1 p2 v obj :
  independent t paths = true → within t paths = true →
  p1 ∈ paths → p2 ∈ paths → p1 ≠ p2 →
  ∃ obj',
    write t p1 v obj = Some obj' ∧
    read t p1 obj' = (λ r, v mod 2 ^ (snd r - fst r)) <$> bits_at t p1 ∧
    read t p2 obj' = read t p2 obj ∧
    is_Some (read t p2 obj) ∧
    (obj < 2 ^ (8 * sizeof t) → obj' < 2 ^ (8 * sizeof t)).
Proof.
  intros Hind Hin H1 H2 Hne.
  destruct (independent_spec t paths p1 p2 Hind H1 H2 Hne) as (r1 & r2 & Hr1 & Hr2 & Hd).
  destruct (within_spec t paths p1 Hin H1) as (r1' & Hr1' & Hend).
  assert (r1' = r1) as -> by congruence.
  exists (put obj r1 v). unfold write, read. rewrite Hr1, Hr2. simpl.
  repeat split.
  - rewrite get_put_same. reflexivity.
  - rewrite (get_put_disjoint obj r1 r2 v Hd). reflexivity.
  - eexists. reflexivity.
  - intros Hobj. apply put_bound; assumption.
Qed.

(** In a [KIDTENTRY64] a store to one of the ten members reads back cut to
    the member's width, leaves the other nine as they were and keeps the
    object within its 16 bytes. *)
Theorem KIDTENTRY64_stores_are_local p1 p2 v obj :
  p1 ∈ KIDTENTRY64_fields → p2 ∈ KIDTENTRY64_fields → p1 ≠ p2 →
  ∃ obj',
    write _KIDTENTRY64 p1 v obj = Some obj' ∧
    read _KIDTENTRY64 p1 obj'
      = (λ r, v mod 2 ^ (snd r - fst r)) <$> bits_at _KIDTENTRY64 p1 ∧
    read _KIDTENTRY64 p2 obj' = read _KIDTENTRY64 p2 obj ∧
    is_Some (read _KIDTENTRY64 p2 obj) ∧
    (obj < 2 ^ (8 * sizeof _KIDTENTRY64) → obj' < 2 ^ (8 * sizeof _KIDTENTRY64)).
Proof. apply stores_are_local; vm_compute; reflexivity. Qed.

Lemma KIDTENTRY64_stores_are_local_witness :
  ∃ obj',
    write _KIDTENTRY64 ["Dpl"] 7 (2 ^ 128 - 1) = Some obj' ∧
    read _KIDTENTRY64 ["Dpl"] obj' = Some 3 ∧
    read _KIDTENTRY64 ["Present"] obj' = Some 1.
Proof.
  destruct (KIDTENTRY64_stores_are_local ["Dpl"] ["Present"] 7 (2 ^ 128 - 1))
    as (obj' & Hw & Hsame & Hother & _).
  - vm_compute. do 5 right. left.
  - vm_compute. do 6 right. left.
  - discriminate.
  - exists obj'. split; [exact Hw|]. split.
    + rewrite Hsame. vm_compute. reflexivity.
    + rewrite Hother. vm_compute. reflexivity.
Defined.

(** The same in a [KGDTENTRY64], with the middle written and read through
    [Bits] or through [Bytes]. *)
Theorem KGDTENTRY64_stores_are_local paths p1 p2 v obj :
  paths = KGDTENTRY64_fields_bits ∨ paths = KGDTENTRY64_fields_bytes →
  p1 ∈ paths → p2 ∈ paths → p1 ≠ p2 →
  ∃ obj',
    write _KGDTENTRY64 p1 v obj = Some obj' ∧
    read _KGDTENTRY64 p1 obj'
      = (λ r, v mod 2 ^ (snd r - fst r)) <$> bits_at _KGDTENTRY64 p1 ∧
    read _KGDTENTRY64 p2 obj' = read _KGDTENTRY64 p2 obj ∧
    is_Some (read _KGDTENTRY64 p2 obj) ∧
    (obj < 2 ^ (8 * sizeof _KGDTENTRY64) → obj' < 2 ^ (8 * sizeof _KGDTENTRY64)).
Proof.
  intros [-> | ->]; apply stores_are_local; vm_compute; reflexivity.
Qed.

Lemma KGDTENTRY64_stores_are_local_witness :
  ∃ obj',
    write _KGDTENTRY64 ["Bits"; "Type"] 11 0 = Some obj' ∧
    read _KGDTENTRY64 ["Bits"; "Type"] obj' = Some 11 ∧
    read _KGDTENTRY64 ["Bits"; "Present"] obj' = Some 0.
Proof.
  destruct (KGDTENTRY64_stores_are_local KGDTENTRY64_fields_bits
              ["Bits"; "Type"] ["Bits"; "Present"] 11 0)
    as (obj' & Hw & Hsame & Hother & _).
  - left. reflexivity.
  - vm_compute. do 3 right. left.
  - vm_compute. do 5 right. left.
  - discriminate.
  - exists obj'. split; [exact Hw|]. split.
    + rewrite Hsame. vm_compute. reflexivity.
    + rewrite Hother. vm_compute. reflexivity.
Defined.

(** A store to [Alignment] of a [KIDTENTRY64] replaces the members from
    [OffsetLow] to [OffsetMiddle] by the matching bits of the value and
    leaves [OffsetHigh] and [Reserved1] as they were. *)
Theorem KIDTENTRY64_Alignment_store (v obj : N) :
  ∃ obj',
    write _KIDTENTRY64 ["Alignment"] v obj = Some obj' ∧
    Forall (λ p, read _KIDTENTRY64 p obj' = read _KIDTENTRY64 p v ∧
                 is_Some (read _KIDTENTRY64 p v))
      [["OffsetLow"]; ["Selector"]; ["IstIndex"]; ["Reserved0"]; ["Type"];
       ["Dpl"]; ["Present"]; ["OffsetMiddle"]] ∧
    Forall (λ p, read _KIDTENTRY64 p obj' = read _KIDTENTRY64 p obj ∧
                 is_Some (read _KIDTENTRY64 p obj))
      [["OffsetHigh"]; ["Reserved1"]].
Proof.
  exists (put obj (0, 64) v).
  split; [reflexivity|].
  split; repeat constructor; ranges;
    try (eexists; reflexivity); f_equal;
    first [ apply (get_put_disjoint obj (0, 64) _ v); reflexivity
          | rewrite get_put_inside by lia; reflexivity ].
Qed.

(** A store to [Alignment] of a [KGDTENTRY64] replaces [LimitLow],
    [BaseLow] and the middle, in both views, and leaves [BaseUpper] and
    [MustBeZero] as they were. *)
Theorem KGDTENTRY64_Alignment_store (v obj : N) :
  ∃ obj',
    write _KGDTENTRY64 ["Alignment"] v obj = Some obj' ∧
    Forall (λ p, read _KGDTENTRY64 p obj' = read _KGDTENTRY64 p v ∧
                 is_Some (read _KGDTENTRY64 p v))
      [["LimitLow"]; ["BaseLow"];
       ["Bytes"; "BaseMiddle"]; ["Bytes"; "Flags1"]; ["Bytes"; "Flags2"];
       ["Bytes"; "BaseHigh"];
       ["Bits"; "BaseMiddle"]; ["Bits"; "Type"]; ["Bits"; "Dpl"];
       ["Bits"; "Present"]; ["Bits"; "LimitHigh"]; ["Bits"; "System"];
       ["Bits"; "LongMode"]; ["Bits"; "DefaultBig"]; ["Bits"; "Granularity"];
       ["Bits"; "BaseHigh"]] ∧
    Forall (λ p, read _KGDTENTRY64 p obj' = read _KGDTENTRY64 p obj ∧
                 is_Some (read _KGDTENTRY64 p obj))
      [["BaseUpper"]; ["MustBeZero"]].
Proof.
  exists (put obj (0, 64) v).
  split; [reflexivity|].
  split; repeat constructor; ranges;
    try (eexists; reflexivity); f_equal;
    first [ apply (get_put_disjoint obj (0, 64) _ v); reflexivity
          | rewrite get_put_inside by lia; reflexivity ].
Qed.
